(** * AI Image Fusion: the request/response workflow of [App.tsx]

    A shallow embedding of the [App] component of [src/assets/App.tsx]:
    its six [useState] cells, the two handlers [handleImageChange] and
    [handleGenerate], the three conditional blocks of the result section,
    and the events the rendered page can deliver to them.

    JavaScript values are embedded as follows.  A [string | null] cell is an
    [option string]; an object-or-null cell is an [option] of a record; a
    value that may be [undefined] is an [option] too.  Truthiness is written
    out: an object is always truthy, a string is truthy when it is not
    empty, [null] and [undefined] are falsy. *)

From Stdlib Require Import String Ascii List Bool Arith Lia.
Import ListNotations.
Open Scope string_scope.

(** ** JavaScript helpers *)

(** [!!s] for a string. *)
Definition str_truthy (s : string) : bool := negb (String.eqb s "").

(** [!!v] for a [string | null] (or [string | undefined]) value. *)
Definition truthy (v : option string) : bool :=
  match v with
  | Some s => str_truthy s
  | None => false
  end.

(** [!!v] for an object-or-null value. *)
Definition present {A : Type} (v : option A) : bool :=
  match v with
  | Some _ => true
  | None => false
  end.

(** [s.split(sep)] for a one-character separator: never the empty array. *)
Fixpoint split (sep : ascii) (s : string) : list string :=
  match s with
  | EmptyString => [EmptyString]
  | String c rest =>
      if Ascii.eqb c sep then EmptyString :: split sep rest
      else
        match split sep rest with
        | [] => [String c EmptyString]
        | h :: t => String c h :: t
        end
  end.

(** A thrown value, reduced to the [message] the handlers read from it. *)
Record JsError := { message : string }.

(** How a block of code completes: normally, or by throwing. *)
Inductive Completion (A : Type) :=
| Normal (a : A)
| Throws (e : JsError).
Arguments Normal {A} a.
Arguments Throws {A} e.

(** ** The generation service ([@google/genai])

    The client library is an external collaborator, imported at line 2;
    only the shape of what the component sends and reads back is
    embedded. *)
Module Genai.

(** The library's [Modality] enumeration; the component names [IMAGE]. *)
Inductive Modality := MODALITY_UNSPECIFIED | TEXT | IMAGE | AUDIO.

(** Modelled from the spec: the type of the response, which the library
    declares and the source only reads.  A response is a list of candidate
    outputs, each a list of content parts, where an image-bearing part
    carries [{ data: base64 string, mimeType: string }]; every level the
    source reads with [?.] may be absent. *)
Record Blob := { data : string; mimeType : string }.

Record Part := { inlineData : option Blob; text : option string }.

Record Content := { parts : option (list Part) }.

Record Candidate := { content : option Content }.

Record GenerateContentResponse := { candidates : option (list Candidate) }.

(** The parts the component puts in a request: what [fileToGenerativePart]
    returns, and [{ text: prompt }]. *)
Inductive RequestPart :=
| InlineData (data : option string) (mimeType : string)
| Text (text : string).

Record GenerateContentParameters := {
  model : string;
  contents : list RequestPart;
  responseModalities : list Modality
}.

(** One call of [ai.models.generateContent], with the key the client was
    built with. *)
Record Call := { apiKey : string; params : GenerateContentParameters }.

(** How the awaited call settles. *)
Inductive Settled :=
| Resolved (response : GenerateContentResponse)
| Rejected (err : JsError).

End Genai.

(** ** Component state *)

(** [{ base64: string; mimeType: string }]; [base64] is what
    [split(',')[1]] gave, which is [undefined] for a result without a
    comma. *)
Record ImagePayload := { base64 : option string; mimeType : string }.

Record State := mkState {
  image1 : option ImagePayload;
  image2 : option ImagePayload;
  selectedAction : string;
  generatedImage : option string;
  isLoading : bool;
  error : option string
}.

(** The initial values of the [useState] cells (lines 52-57). *)
Definition initialState : State :=
  {| image1 := None; image2 := None; selectedAction := "shaking hands";
     generatedImage := None; isLoading := false; error := None |}.

Definition setImage1 (v : option ImagePayload) (s : State) : State :=
  mkState v (image2 s) (selectedAction s) (generatedImage s) (isLoading s) (error s).

Definition setImage2 (v : option ImagePayload) (s : State) : State :=
  mkState (image1 s) v (selectedAction s) (generatedImage s) (isLoading s) (error s).

Definition setSelectedAction (v : string) (s : State) : State :=
  mkState (image1 s) (image2 s) v (generatedImage s) (isLoading s) (error s).

Definition setGeneratedImage (v : option string) (s : State) : State :=
  mkState (image1 s) (image2 s) (selectedAction s) v (isLoading s) (error s).

Definition setIsLoading (v : bool) (s : State) : State :=
  mkState (image1 s) (image2 s) (selectedAction s) (generatedImage s) v (error s).

Definition setError (v : option string) (s : State) : State :=
  mkState (image1 s) (image2 s) (selectedAction s) (generatedImage s) (isLoading s) v.

(** ** Image intake: [handleImageChange] (lines 68-80) *)

(** What the browser's [FileReader] does with a file: the constructor or
    [readAsDataURL] throws on the spot, or the read is started and
    [loadend] fires later with [reader.result], which is the data URL, or
    [null] when the read failed. *)
Inductive ReadBehaviour :=
| ReadThrows (e : JsError)
| LoadEnd (result : option string).

(** A [File]: its [type], and how reading it goes. *)
Record File := { type : string; reading : ReadBehaviour }.

(** The [reader.onloadend] callback (lines 71-74).  [null.split] is a
    [TypeError]. *)
Definition onloadend (file : File) (result : option string)
    (setImageState : option ImagePayload -> State -> State) (s : State)
  : Completion State :=
  match result with
  | None =>
      Throws {| message := "Cannot read properties of null (reading 'split')" |}
  | Some dataUrl =>
      let base64String := nth_error (split "," dataUrl) 1 in
      Normal (setImageState
                (Some {| base64 := base64String; mimeType := type file |}) s)
  end.

(** The state after the handler and its callback have run, and the error
    that escaped, if any.  The callback runs outside the [try] block: what
    it throws is not caught by the handler's [catch], reaches the event
    loop as an uncaught error, and updates no state cell. *)
Record Intake := { after : State; uncaught : option JsError }.

Definition handleImageChange (file : File)
    (setImageState : option ImagePayload -> State -> State) (s : State)
  : Intake :=
  match reading file with
  | ReadThrows _ =>
      {| after := setError (Some "Failed to read image file.") s;
         uncaught := None |}
  | LoadEnd result =>
      match onloadend file result setImageState s with
      | Normal s' => {| after := s'; uncaught := None |}
      | Throws e => {| after := s; uncaught := Some e |}
      end
  end.

(** ** The uploader: [ImageUploader] (lines 19-42) and its props *)

(** [handleFileChange] (lines 20-24).  [files] is [event.target.files]: a
    [FileList], or [null]; the handler passes on [files[0]] when there is
    one, and does nothing otherwise. *)
Definition handleFileChange (files : option (list File))
    (onImageChange : File -> State -> Intake) (s : State) : Intake :=
  match files with
  | Some (file :: _) => onImageChange file s
  | Some [] => {| after := s; uncaught := None |}
  | None => {| after := s; uncaught := None |}
  end.

(** A [string | undefined] value inside a template literal. *)
Definition interpolate (v : option string) : string :=
  match v with
  | Some s => s
  | None => "undefined"
  end.

(** The [previewUrl] prop (lines 168 and 201):
    [image ? `data:${image.mimeType};base64,${image.base64}` : null]. *)
Definition previewUrl (image : option ImagePayload) : option string :=
  match image with
  | Some img =>
      Some ("data:" ++ mimeType img ++ ";base64," ++ interpolate (base64 img))
  | None => None
  end.

(** ** Fusion request: [handleGenerate] (lines 82-143)

    The handler is an [async] function with one [await]: it is embedded as
    the part that runs at the click ([handleGenerate_start], up to the
    call) and the part that runs when the call settles
    ([handleGenerate_settle], from the scan of the response to the
    [finally] clause).  State updates made within one part are applied
    together, as React applies them. *)

Definition MISSING_INPUTS : string :=
  "Please upload both images and select an action.".

Definition MISSING_API_KEY : string :=
  "API_KEY environment variable not set. Please configure it to use the Gemini API.".

Definition NO_IMAGE_RETURNED : string :=
  "The model did not return an image. Please try a different prompt or images.".

Definition PROMPT_HEAD : string :=
  "From the two images provided, create a new photorealistic image where the person from the first image and the person from the second image are ".

Definition PROMPT_TAIL : string :=
  ". The background should be neutral and the interaction between the two people should look natural and believable.".

(** Line 59. *)
Definition fileToGenerativePart (file : ImagePayload) : Genai.RequestPart :=
  Genai.InlineData (base64 file) (mimeType file).

(** Line 102. *)
Definition prompt (selectedAction : string) : string :=
  PROMPT_HEAD ++ selectedAction ++ PROMPT_TAIL.

(** Lines 107-119. *)
Definition generateContentParameters (image1 image2 : ImagePayload)
    (selectedAction : string) : Genai.GenerateContentParameters :=
  let imagePart1 := fileToGenerativePart image1 in
  let imagePart2 := fileToGenerativePart image2 in
  {| Genai.model := "gemini-2.5-flash-image";
     Genai.contents := [imagePart1; imagePart2; Genai.Text (prompt selectedAction)];
     Genai.responseModalities := [Genai.IMAGE] |}.

(** The guard of line 83: [!image1 || !image2 || !selectedAction]. *)
Definition missing_inputs (s : State) : bool :=
  negb (present (image1 s)) || negb (present (image2 s))
  || negb (str_truthy (selectedAction s)).

(** Lines 95-97. *)
Definition begin_loading (s : State) : State :=
  setGeneratedImage None (setError None (setIsLoading true s)).

(** Line 126. *)
Definition imageUrl (blob : Genai.Blob) : string :=
  "data:" ++ Genai.mimeType blob ++ ";base64," ++ Genai.data blob.

(** [response.candidates?.[0]?.content?.parts ?? []] (line 122). *)
Definition response_parts (response : Genai.GenerateContentResponse)
  : list Genai.Part :=
  match Genai.candidates response with
  | Some (first :: _) =>
      match Genai.content first with
      | Some c =>
          match Genai.parts c with
          | Some ps => ps
          | None => []
          end
      | None => []
      end
  | Some [] => []
  | None => []
  end.

(** The [for] loop of lines 122-131: the state it leaves and the final
    value of [generatedImageFound]. *)
Fixpoint scan_parts (ps : list Genai.Part) (s : State) : State * bool :=
  match ps with
  | [] => (s, false)
  | part :: rest =>
      match Genai.inlineData part with
      | Some blob => (setGeneratedImage (Some (imageUrl blob)) s, true)
      | None => scan_parts rest s
      end
  end.

(** Lines 121-142: the continuation after the [await]. *)
Definition handleGenerate_settle (outcome : Genai.Settled) (s : State) : State :=
  let tried :=
    match outcome with
    | Genai.Resolved response =>
        let (s', generatedImageFound) := scan_parts (response_parts response) s in
        if generatedImageFound then s'
        else setError (Some NO_IMAGE_RETURNED) s'
    | Genai.Rejected err =>
        setError (Some ("An error occurred: " ++ message err)) s
    end in
  setIsLoading false tried.

(** ** Presenter (lines 209-231) *)

Inductive Outcome :=
| Idle
| Loading
| Success (imageDataUrl : string)
| Failure (message : string).

(** The blocks the result section renders, in the order of the JSX. *)
Definition rendered (s : State) : list Outcome :=
  (if isLoading s then [Loading] else [])
  ++ (match error s with
      | Some m => if str_truthy m then [Failure m] else []
      | None => []
      end)
  ++ (match generatedImage s with
      | Some url => if str_truthy url then [Success url] else []
      | None => []
      end).

(** The outcome variants active in a state: the rendered ones, [Idle] when
    nothing is rendered. *)
Definition active_outcomes (s : State) : list Outcome :=
  match rendered s with
  | [] => [Idle]
  | shown => shown
  end.

(** The [disabled] attribute of the button (line 189). *)
Definition button_disabled (s : State) : bool :=
  isLoading s || negb (present (image1 s)) || negb (present (image2 s)).

(** The [value]s of the three [option]s of the select (lines 182-184). *)
Inductive ActionOption := ShakeHands | HugEachOther | SaluteEachOther.

Definition value (o : ActionOption) : string :=
  match o with
  | ShakeHands => "shaking hands"
  | HugEachOther => "hugging each other"
  | SaluteEachOther => "saluting each other"
  end.

Inductive Slot := Person1 | Person2.

(** The setter each uploader passes to [handleImageChange] (lines 167, 200). *)
Definition setImage (slot : Slot) : option ImagePayload -> State -> State :=
  match slot with
  | Person1 => setImage1
  | Person2 => setImage2
  end.

(** What can happen to the page. *)
Inductive Event :=
| FileChosen (slot : Slot) (file : File)
| ActionChosen (o : ActionOption)
| ButtonClicked
| CallSettled (outcome : Genai.Settled).

(** An event that raises no image-intake failure message. *)
Definition quiet (e : Event) : bool :=
  match e with
  | FileChosen _ file =>
      match reading file with
      | ReadThrows _ => false
      | LoadEnd _ => true
      end
  | _ => true
  end.

(** An event that may come between a click and the answer to its call
    without raising an intake failure: anything quiet but the answer. *)
Definition waiting (e : Event) : bool :=
  match e with
  | CallSettled _ => false
  | _ => quiet e
  end.

(** The component state, and the number of calls awaiting their answer. *)
Record Config := { ui : State; inflight : nat }.

Definition initialConfig : Config := {| ui := initialState; inflight := 0 |}.

Section Session.

(** [process.env.API_KEY], fixed for the session. *)
Variable API_KEY : option string.

(** Lines 83-119: the state after the synchronous part, and the call made,
    if any.  The guards of lines 83 and 89 are written as the matches that
    also yield the values the rest of the handler uses; that they are the
    tests the source writes is [start_missing_inputs], [start_missing_key]
    and [start_passes] below. *)
Definition handleGenerate_start (s : State) : State * option Genai.Call :=
  match image1 s, image2 s with
  | Some img1, Some img2 =>
      if negb (str_truthy (selectedAction s)) then
        (setError (Some MISSING_INPUTS) s, None)
      else
        match API_KEY with
        | Some key =>
            if str_truthy key then
              (begin_loading s,
               Some {| Genai.apiKey := key;
                       Genai.params :=
                         generateContentParameters img1 img2 (selectedAction s) |})
            else (setError (Some MISSING_API_KEY) s, None)
        | None => (setError (Some MISSING_API_KEY) s, None)
        end
  | _, _ => (setError (Some MISSING_INPUTS) s, None)
  end.

(** One event.  A click on the disabled button calls no handler; an answer
    can only arrive for a call that was made. *)
Definition step (e : Event) (c : Config) : Config :=
  match e with
  | FileChosen slot file =>
      {| ui := after (handleImageChange file (setImage slot) (ui c));
         inflight := inflight c |}
  | ActionChosen o =>
      {| ui := setSelectedAction (value o) (ui c); inflight := inflight c |}
  | ButtonClicked =>
      if button_disabled (ui c) then c
      else
        let (s', call) := handleGenerate_start (ui c) in
        {| ui := s';
           inflight := if present call then S (inflight c) else inflight c |}
  | CallSettled outcome =>
      match inflight c with
      | O => c
      | S n => {| ui := handleGenerate_settle outcome (ui c); inflight := n |}
      end
  end.

(** Events are given oldest first. *)
Fixpoint run (es : list Event) (c : Config) : Config :=
  match es with
  | [] => c
  | e :: rest => run rest (step e c)
  end.

Inductive Reachable : Config -> Prop :=
| reach_init : Reachable initialConfig
| reach_step e c : Reachable c -> Reachable (step e c).

(** Reachable without an image-intake failure message. *)
Inductive QuietReachable : Config -> Prop :=
| quiet_init : QuietReachable initialConfig
| quiet_step e c : quiet e = true -> QuietReachable c -> QuietReachable (step e c).

End Session.

(** ** Vocabulary of the statements *)

(** [content?.parts ?? []] of one candidate. *)
Definition candidate_parts (c : Genai.Candidate) : list Genai.Part :=
  match Genai.content c with
  | Some ct =>
      match Genai.parts ct with
      | Some ps => ps
      | None => []
      end
  | None => []
  end.

(** Every part of every candidate of a response. *)
Definition all_parts (response : Genai.GenerateContentResponse) : list Genai.Part :=
  match Genai.candidates response with
  | Some cs => flat_map candidate_parts cs
  | None => []
  end.

(** A part that carries no inline image. *)
Definition imageless (p : Genai.Part) : Prop := Genai.inlineData p = None.

(** A response made of one first candidate with the given parts, followed
    by other candidates. *)
Definition response_of (ps : list Genai.Part) (others : list Genai.Candidate)
  : Genai.GenerateContentResponse :=
  {| Genai.candidates :=
       Some ({| Genai.content := Some {| Genai.parts := Some ps |} |} :: others) |}.

(** The candidates list, the first candidate's content, or its parts list
    is absent or empty. *)
Inductive Hollow : Genai.GenerateContentResponse -> Prop :=
| hollow_no_candidates r :
    Genai.candidates r = None -> Hollow r
| hollow_empty_candidates r :
    Genai.candidates r = Some [] -> Hollow r
| hollow_no_content r first others :
    Genai.candidates r = Some (first :: others) ->
    Genai.content first = None -> Hollow r
| hollow_no_parts r first others ct :
    Genai.candidates r = Some (first :: others) ->
    Genai.content first = Some ct -> Genai.parts ct = None -> Hollow r
| hollow_empty_parts r first others ct :
    Genai.candidates r = Some (first :: others) ->
    Genai.content first = Some ct -> Genai.parts ct = Some [] -> Hollow r.

(** The preconditions of a dispatch: both slots populated, an action
    selected, a credential configured. *)
Definition preconditions (API_KEY : option string) (s : State) : Prop :=
  image1 s <> None /\ image2 s <> None
  /\ str_truthy (selectedAction s) = true /\ truthy API_KEY = true.

(** *** Invariants of the page, for a session with credential [API_KEY] *)

(** No call has been made yet. *)
Definition never_dispatched (c : Config) : Prop :=
  isLoading (ui c) = false /\ generatedImage (ui c) = None /\ inflight c = 0.

(** Holds in every reachable configuration. *)
Definition page_invariant (API_KEY : option string) (c : Config) : Prop :=
  (exists o, selectedAction (ui c) = value o)
  /\ (image1 (ui c) = None \/ image2 (ui c) = None \/ truthy API_KEY = false ->
      never_dispatched c).

(** Holds in every configuration reached without an intake failure. *)
Definition exclusive_invariant (API_KEY : option string) (c : Config) : Prop :=
  str_truthy (selectedAction (ui c)) = true
  /\ ((isLoading (ui c) = true /\ inflight c = 1
       /\ error (ui c) = None /\ generatedImage (ui c) = None
       /\ truthy API_KEY = true)
      \/ (isLoading (ui c) = false /\ inflight c = 0
          /\ (error (ui c) = None \/ generatedImage (ui c) = None)
          /\ (truthy API_KEY = false -> generatedImage (ui c) = None))).

(** The message of the [catch] of [handleImageChange], or no message. *)
Definition intake_message_or_none (e : option string) : Prop :=
  e = None \/ e = Some "Failed to read image file.".

(** Holds in every reachable configuration, intake failures included:
    either a call is awaited, or none is. *)
Definition overlap_invariant (API_KEY : option string) (c : Config) : Prop :=
  str_truthy (selectedAction (ui c)) = true
  /\ ((isLoading (ui c) = true /\ inflight c = 1
       /\ intake_message_or_none (error (ui c))
       /\ generatedImage (ui c) = None
       /\ present (image1 (ui c)) = true /\ present (image2 (ui c)) = true
       /\ truthy API_KEY = true)
      \/ (isLoading (ui c) = false /\ inflight c = 0
          /\ (intake_message_or_none (error (ui c))
              \/ generatedImage (ui c) = None)
          /\ (truthy API_KEY = false -> generatedImage (ui c) = None))).

(** The cell of a slot. *)
Definition slotImage (slot : Slot) (s : State) : option ImagePayload :=
  match slot with
  | Person1 => image1 s
  | Person2 => image2 s
  end.

(** A string without a comma. *)
Fixpoint without_comma (s : string) : bool :=
  match s with
  | EmptyString => true
  | String c rest => negb (Ascii.eqb c ",") && without_comma rest
  end.

(** What [onImageChange] is for a slot (lines 167 and 200). *)
Definition onImageChange (slot : Slot) (file : File) (s : State) : Intake :=
  handleImageChange file (setImage slot) s.

(** ** Sample data *)

Definition png (body : string) : File :=
  {| type := "image/png"; reading := LoadEnd (Some ("data:image/png;base64," ++ body)) |}.

Definition unreadable : File :=
  {| type := "image/png"; reading := LoadEnd None |}.

Definition refused : File :=
  {| type := "image/png";
     reading := ReadThrows {| message := "The object is in an invalid state." |} |}.

Definition text_part (t : string) : Genai.Part :=
  {| Genai.inlineData := None; Genai.text := Some t |}.

Definition image_part (mime body : string) : Genai.Part :=
  {| Genai.inlineData := Some {| Genai.data := body; Genai.mimeType := mime |};
     Genai.text := None |}.

Definition sample_key : option string := Some "k3y".

Definition both_loaded : State :=
  {| image1 := Some {| base64 := Some "QUJD"; mimeType := "image/png" |};
     image2 := Some {| base64 := Some "REVG"; mimeType := "image/jpeg" |};
     selectedAction := "hugging each other";
     generatedImage := None; isLoading := false; error := None |}.

Definition one_image : Genai.GenerateContentResponse :=
  response_of [text_part "Here you are."; image_part "image/png" "R0lG";
               image_part "image/webp" "UklG"]
              [{| Genai.content := Some {| Genai.parts := Some [image_part "image/jpeg" "LzlK"] |} |}].

Definition words_only : Genai.GenerateContentResponse :=
  response_of [text_part "I cannot do that."] [].

(** Two uploads, a fusion that succeeds, then a file the reader refuses. *)
Definition success_then_refused_file : list Event :=
  [FileChosen Person1 (png "QUJD"); FileChosen Person2 (png "REVG");
   ButtonClicked; CallSettled (Genai.Resolved one_image);
   FileChosen Person1 refused].

(** Two uploads, a click, and a file the reader refuses while the call is
    awaited. *)
Definition refused_file_while_loading : list Event :=
  [FileChosen Person1 (png "QUJD"); FileChosen Person2 (png "REVG");
   ButtonClicked; FileChosen Person2 refused].

(** Two uploads, a click, a file the reader refuses while the call is
    awaited, then an answer that carries an image. *)
Definition refused_file_then_image : list Event :=
  [FileChosen Person1 (png "QUJD"); FileChosen Person2 (png "REVG");
   ButtonClicked; FileChosen Person2 refused;
   CallSettled (Genai.Resolved one_image)].

Definition jpeg (body : string) : File :=
  {| type := "image/jpeg";
     reading := LoadEnd (Some ("data:image/jpeg;base64," ++ body)) |}.

(** A file whose read gives the bare [data:] some browsers produce for an
    empty file. *)
Definition empty_file : File :=
  {| type := ""; reading := LoadEnd (Some "data:") |}.

Definition awaiting_answer : list Event :=
  [FileChosen Person1 (png "QUJD"); FileChosen Person2 (jpeg "REVG");
   ButtonClicked].

(** ** The scan of the response *)

Example split_data_url :
  nth_error (split "," "data:image/png;base64,QUJD") 1 = Some "QUJD".
Proof. reflexivity. Qed.

Example split_without_comma : nth_error (split "," "data:") 1 = None.
Proof. reflexivity. Qed.

Example png_fills_the_slot :
  image1 (after (handleImageChange (png "QUJD") setImage1 initialState))
  = Some {| base64 := Some "QUJD"; mimeType := "image/png" |}.
Proof. reflexivity. Qed.

Lemma response_parts_head (r : Genai.GenerateContentResponse) first others :
  Genai.candidates r = Some (first :: others) ->
  response_parts r = candidate_parts first.
Proof.
  intros Hc. unfold response_parts, candidate_parts. rewrite Hc. reflexivity.
Qed.

Lemma response_parts_in_all (r : Genai.GenerateContentResponse) p :
  In p (response_parts r) -> In p (all_parts r).
Proof.
  unfold all_parts. destruct (Genai.candidates r) as [[|first others]|] eqn:Hc.
  - unfold response_parts. rewrite Hc. intros [].
  - rewrite (response_parts_head r first others Hc). intros Hin. simpl.
    apply in_or_app. now left.
  - unfold response_parts. rewrite Hc. intros [].
Qed.

Lemma scan_parts_skips pre rest s :
  Forall imageless pre -> scan_parts (pre ++ rest) s = scan_parts rest s.
Proof.
  induction 1 as [|p pre Hp _ IH]; simpl.
  - reflexivity.
  - unfold imageless in Hp. rewrite Hp. exact IH.
Qed.

(** A list with an inline-image part splits at the first one. *)
Lemma first_inline_part_exists ps :
  Exists (fun p => Genai.inlineData p <> None) ps ->
  exists pre part blob post,
    ps = (pre ++ part :: post)%list
    /\ Forall imageless pre /\ Genai.inlineData part = Some blob.
Proof.
  induction ps as [|p ps IH]; intros Hex.
  - inversion Hex.
  - destruct (Genai.inlineData p) as [blob|] eqn:Hp.
    + exists [], p, blob, ps. repeat split; [constructor|exact Hp].
    + destruct IH as (pre & part & blob & post & -> & Hpre & Hpart).
      { inversion Hex as [? ? Hhere|? ? Hlater]; subst; [congruence|exact Hlater]. }
      exists (p :: pre), part, blob, post. repeat split; [|exact Hpart].
      constructor; assumption.
Qed.

Lemma scan_parts_imageless ps s :
  Forall imageless ps -> scan_parts ps s = (s, false).
Proof.
  intros H. rewrite <- (app_nil_r ps). now rewrite scan_parts_skips.
Qed.

Lemma scan_parts_first pre part blob post s :
  Forall imageless pre -> Genai.inlineData part = Some blob ->
  scan_parts (pre ++ part :: post) s
  = (setGeneratedImage (Some (imageUrl blob)) s, true).
Proof.
  intros Hpre Hpart. rewrite scan_parts_skips by assumption.
  simpl. now rewrite Hpart.
Qed.

Lemma settle_image_found r pre part blob post s :
  response_parts r = (pre ++ part :: post)%list ->
  Forall imageless pre -> Genai.inlineData part = Some blob ->
  handleGenerate_settle (Genai.Resolved r) s
  = setIsLoading false (setGeneratedImage (Some (imageUrl blob)) s).
Proof.
  intros Hr Hpre Hpart. unfold handleGenerate_settle.
  rewrite Hr, (scan_parts_first pre part blob post s Hpre Hpart). reflexivity.
Qed.

Lemma settle_no_image r s :
  Forall imageless (response_parts r) ->
  handleGenerate_settle (Genai.Resolved r) s
  = setIsLoading false (setError (Some NO_IMAGE_RETURNED) s).
Proof.
  intros H. unfold handleGenerate_settle.
  now rewrite (scan_parts_imageless _ s H).
Qed.

Lemma Hollow_response_parts r : Hollow r -> response_parts r = [].
Proof.
  intros H. unfold response_parts.
  inversion H as [r' Hc|r' Hc|r' f o Hc Hct|r' f o ct Hc Hct Hp|r' f o ct Hc Hct Hp];
    subst; rewrite Hc; try reflexivity; rewrite Hct; try reflexivity;
    rewrite Hp; reflexivity.
Qed.

Lemma imageUrl_truthy blob : str_truthy (imageUrl blob) = true.
Proof. reflexivity. Qed.

Lemma active_after_image url s :
  str_truthy url = true ->
  active_outcomes
    (setIsLoading false (setGeneratedImage (Some url) (begin_loading s)))
  = [Success url].
Proof.
  intros Hu. unfold active_outcomes, rendered. simpl. now rewrite Hu.
Qed.

Lemma active_after_error m s :
  str_truthy m = true ->
  active_outcomes (setIsLoading false (setError (Some m) (begin_loading s)))
  = [Failure m].
Proof.
  intros Hm. unfold active_outcomes, rendered. simpl. now rewrite Hm.
Qed.

Lemma active_begin_loading s : active_outcomes (begin_loading s) = [Loading].
Proof. reflexivity. Qed.

(** ** The response scan: claims C1, C3 and C9 *)

(** C1.  When the first candidate of the response has an inline-image part,
    and [part] is the first such part (the parts [pre] before it carry
    none), settling the call stores exactly
    [data:<mimeType>;base64,<data>] built from that part's two fields and
    leaves the loading state, so that the outcome of a dispatch is
    [Success] of that URL; the parts after it and the other candidates do
    not matter, and the loop behaves as on the list cut after [part]. *)
Theorem first_inline_image_is_the_result :
  forall (r : Genai.GenerateContentResponse) first others ct pre part blob post,
    Genai.candidates r = Some (first :: others) ->
    Genai.content first = Some ct ->
    Genai.parts ct = Some (pre ++ part :: post)%list ->
    Forall imageless pre ->
    Genai.inlineData part = Some blob ->
    let url := "data:" ++ Genai.mimeType blob ++ ";base64," ++ Genai.data blob in
    (forall s, handleGenerate_settle (Genai.Resolved r) s
               = setIsLoading false (setGeneratedImage (Some url) s))
    /\ (forall s, active_outcomes
                    (handleGenerate_settle (Genai.Resolved r) (begin_loading s))
                  = [Success url])
    /\ (forall s post' others',
          handleGenerate_settle
            (Genai.Resolved (response_of (pre ++ part :: post') others')) s
          = handleGenerate_settle (Genai.Resolved r) s)
    /\ (forall s, scan_parts (pre ++ part :: post) s = scan_parts (pre ++ [part]) s).
Proof.
  intros r first others ct pre part blob post Hc Hct Hps Hpre Hpart url.
  assert (Hr : response_parts r = (pre ++ part :: post)%list).
  { rewrite (response_parts_head r first others Hc). unfold candidate_parts.
    now rewrite Hct, Hps. }
  assert (Hsettle : forall s, handleGenerate_settle (Genai.Resolved r) s
                      = setIsLoading false (setGeneratedImage (Some url) s)).
  { intros s. exact (settle_image_found r pre part blob post s Hr Hpre Hpart). }
  repeat split.
  - exact Hsettle.
  - intros s. rewrite Hsettle. apply active_after_image. reflexivity.
  - intros s post' others'. rewrite Hsettle.
    exact (settle_image_found (response_of (pre ++ part :: post') others')
             pre part blob post' s eq_refl Hpre Hpart).
  - intros s. rewrite (scan_parts_first pre part blob post s Hpre Hpart).
    now rewrite (scan_parts_first pre part blob [] s Hpre Hpart).
Qed.

Lemma first_inline_image_is_the_result_witness :
  active_outcomes
    (handleGenerate_settle (Genai.Resolved one_image) (begin_loading both_loaded))
  = [Success "data:image/png;base64,R0lG"].
Proof.
  destruct (first_inline_image_is_the_result one_image _ _ _
              [text_part "Here you are."] (image_part "image/png" "R0lG") _
              [image_part "image/webp" "UklG"]
              eq_refl eq_refl eq_refl
              (Forall_cons (text_part "Here you are.")
                 (eq_refl : imageless (text_part "Here you are."))
                 (Forall_nil imageless))
              eq_refl)
    as (_ & Hout & _).
  exact (Hout both_loaded).
Defined.

(** C3.  When no part of the response carries an inline image, settling the
    call sets the message "The model did not return an image. Please try a
    different prompt or images." and leaves the loading state: the outcome
    of the dispatch is [Failure] of exactly that message. *)
Theorem no_inline_image_is_a_failure :
  forall r : Genai.GenerateContentResponse,
    Forall imageless (all_parts r) ->
    (forall s, handleGenerate_settle (Genai.Resolved r) s
               = setIsLoading false
                   (setError (Some "The model did not return an image. Please try a different prompt or images.") s))
    /\ (forall s, active_outcomes
                    (handleGenerate_settle (Genai.Resolved r) (begin_loading s))
                  = [Failure "The model did not return an image. Please try a different prompt or images."]).
Proof.
  intros r Hall.
  assert (Hfirst : Forall imageless (response_parts r)).
  { rewrite Forall_forall in *. intros p Hp.
    apply Hall, response_parts_in_all, Hp. }
  split; intros s; rewrite (settle_no_image r _ Hfirst).
  - reflexivity.
  - apply active_after_error. reflexivity.
Qed.

Lemma no_inline_image_is_a_failure_witness :
  Forall imageless (all_parts words_only)
  /\ error (handleGenerate_settle (Genai.Resolved words_only) (begin_loading both_loaded))
     = Some "The model did not return an image. Please try a different prompt or images.".
Proof.
  assert (H : Forall imageless (all_parts words_only)).
  { repeat constructor. }
  split; [exact H|].
  destruct (no_inline_image_is_a_failure words_only H) as (Hs & _).
  rewrite Hs. reflexivity.
Defined.

(** C9.  When the candidates list, the first candidate's content or its
    parts list is absent or empty, the scan runs over the empty list and
    the call settles normally with the no-image failure; and the
    candidates after the first one never influence what settling does. *)
Theorem hollow_response_is_the_no_image_failure :
  (forall r : Genai.GenerateContentResponse,
     Hollow r ->
     response_parts r = []
     /\ (forall s, handleGenerate_settle (Genai.Resolved r) s
                   = setIsLoading false (setError (Some NO_IMAGE_RETURNED) s))
     /\ (forall s, active_outcomes
                     (handleGenerate_settle (Genai.Resolved r) (begin_loading s))
                   = [Failure NO_IMAGE_RETURNED]))
  /\ (forall first others others' s,
        handleGenerate_settle
          (Genai.Resolved {| Genai.candidates := Some (first :: others) |}) s
        = handleGenerate_settle
            (Genai.Resolved {| Genai.candidates := Some (first :: others') |}) s).
Proof.
  split.
  - intros r Hr. pose proof (Hollow_response_parts r Hr) as Hnil.
    assert (Hfirst : Forall imageless (response_parts r))
      by (rewrite Hnil; constructor).
    repeat split; try assumption; intros s; rewrite (settle_no_image r _ Hfirst).
    + reflexivity.
    + apply active_after_error. reflexivity.
  - intros first others others' s. reflexivity.
Qed.

Lemma hollow_response_is_the_no_image_failure_witness :
  Hollow {| Genai.candidates := Some [{| Genai.content := None |}] |}
  /\ active_outcomes
       (handleGenerate_settle
          (Genai.Resolved {| Genai.candidates := Some [{| Genai.content := None |}] |})
          (begin_loading both_loaded))
     = [Failure NO_IMAGE_RETURNED].
Proof.
  assert (H : Hollow {| Genai.candidates := Some [{| Genai.content := None |}] |}).
  { eapply hollow_no_content; reflexivity. }
  split; [exact H|].
  destruct hollow_response_is_the_no_image_failure as (Hh & _).
  destruct (Hh _ H) as (_ & _ & Hout).
  exact (Hout both_loaded).
Defined.

(** ** What the two parts of [handleGenerate] can do *)

Lemma scan_parts_cases ps s :
  scan_parts ps s = (s, false)
  \/ exists blob, scan_parts ps s = (setGeneratedImage (Some (imageUrl blob)) s, true).
Proof.
  induction ps as [|p ps IH]; simpl.
  - now left.
  - destruct (Genai.inlineData p) as [blob|].
    + right. now exists blob.
    + exact IH.
Qed.

(** Settling stores an image or a message, never both, and always clears
    the loading flag. *)
Lemma settle_cases outcome s :
  (exists url, str_truthy url = true
     /\ handleGenerate_settle outcome s
        = setIsLoading false (setGeneratedImage (Some url) s))
  \/ (exists m, str_truthy m = true
        /\ handleGenerate_settle outcome s
           = setIsLoading false (setError (Some m) s)).
Proof.
  destruct outcome as [r|err]; unfold handleGenerate_settle.
  - destruct (scan_parts_cases (response_parts r) s) as [H|[blob H]]; rewrite H.
    + right. exists NO_IMAGE_RETURNED. now split.
    + left. exists (imageUrl blob). now split.
  - right. exists ("An error occurred: " ++ message err). now split.
Qed.

(** Settling touches neither the slots nor the selected action. *)
Lemma settle_frame outcome s :
  image1 (handleGenerate_settle outcome s) = image1 s
  /\ image2 (handleGenerate_settle outcome s) = image2 s
  /\ selectedAction (handleGenerate_settle outcome s) = selectedAction s.
Proof.
  destruct (settle_cases outcome s) as [(url & _ & ->)|(m & _ & ->)];
    now repeat split.
Qed.

Lemma settle_clears_loading outcome s :
  isLoading (handleGenerate_settle outcome s) = false.
Proof. reflexivity. Qed.

Lemma value_truthy o : str_truthy (value o) = true.
Proof. now destruct o. Qed.

Lemma str_truthy_nonempty s : str_truthy s = true -> s <> "".
Proof. intros H ->. discriminate H. Qed.

(** What image intake leaves alone. *)
Lemma intake_frame file slot s :
  let s' := after (handleImageChange file (setImage slot) s) in
  selectedAction s' = selectedAction s
  /\ isLoading s' = isLoading s
  /\ generatedImage s' = generatedImage s
  /\ (image1 s' = None -> image1 s = None)
  /\ (image2 s' = None -> image2 s = None)
  /\ (quiet (FileChosen slot file) = true -> error s' = error s).
Proof.
  unfold handleImageChange. simpl.
  destruct (reading file) as [e|[dataUrl|]]; destruct slot; simpl;
    repeat split; auto; discriminate.
Qed.

Section Dispatch.

Variable API_KEY : option string.

Lemma start_missing_inputs s :
  missing_inputs s = true ->
  handleGenerate_start API_KEY s = (setError (Some MISSING_INPUTS) s, None).
Proof.
  unfold missing_inputs, handleGenerate_start.
  destruct (image1 s), (image2 s); simpl; try reflexivity.
  intros ->. reflexivity.
Qed.

Lemma start_missing_key s :
  missing_inputs s = false -> truthy API_KEY = false ->
  handleGenerate_start API_KEY s = (setError (Some MISSING_API_KEY) s, None).
Proof.
  unfold missing_inputs, handleGenerate_start.
  destruct (image1 s), (image2 s); simpl; try discriminate.
  intros ->. destruct API_KEY as [k|]; simpl; [intros ->|]; reflexivity.
Qed.

Lemma start_passes s :
  missing_inputs s = false -> truthy API_KEY = true ->
  exists img1 img2 key,
    image1 s = Some img1 /\ image2 s = Some img2 /\ API_KEY = Some key
    /\ handleGenerate_start API_KEY s
       = (begin_loading s,
          Some {| Genai.apiKey := key;
                  Genai.params :=
                    generateContentParameters img1 img2 (selectedAction s) |}).
Proof.
  unfold missing_inputs, handleGenerate_start.
  destruct (image1 s) as [img1|], (image2 s) as [img2|]; simpl; try discriminate.
  intros ->. destruct API_KEY as [k|]; simpl; [|discriminate].
  intros ->. now exists img1, img2, k.
Qed.

Lemma preconditions_pass s :
  preconditions API_KEY s -> missing_inputs s = false /\ truthy API_KEY = true.
Proof.
  intros (H1 & H2 & Ha & Hk). split; [|exact Hk].
  unfold missing_inputs. rewrite Ha.
  destruct (image1 s); [|contradiction]. destruct (image2 s); [|contradiction].
  reflexivity.
Qed.

Lemma enabled_button s :
  button_disabled s = false ->
  isLoading s = false /\ image1 s <> None /\ image2 s <> None.
Proof.
  unfold button_disabled.
  destruct (isLoading s), (image1 s), (image2 s); simpl;
    intros H; try discriminate H; repeat split; discriminate.
Qed.

Lemma selected_action_passes s :
  str_truthy (selectedAction s) = true ->
  image1 s <> None -> image2 s <> None -> missing_inputs s = false.
Proof.
  intros Ha H1 H2. unfold missing_inputs. rewrite Ha.
  destruct (image1 s); [|contradiction]. destruct (image2 s); [|contradiction].
  reflexivity.
Qed.

Lemma page_invariant_step e c :
  page_invariant API_KEY c -> page_invariant API_KEY (step API_KEY e c).
Proof.
  intros (Hact & Hnever). destruct e as [slot file|o| |outcome]; simpl.
  - destruct (intake_frame file slot (ui c)) as (Ea & El & Eg & E1 & E2 & _).
    split; simpl.
    + rewrite Ea. exact Hact.
    + intros H. unfold never_dispatched in *. simpl. rewrite El, Eg.
      apply Hnever. intuition.
  - split; simpl; [now exists o|exact Hnever].
  - destruct (button_disabled (ui c)) eqn:Hb; [now split|].
    destruct (enabled_button _ Hb) as (Hl & H1 & H2).
    destruct Hact as [o Ho].
    assert (Hm : missing_inputs (ui c) = false).
    { apply selected_action_passes; auto. rewrite Ho. apply value_truthy. }
    destruct (truthy API_KEY) eqn:Hk.
    + destruct (start_passes _ Hm Hk) as (i1 & i2 & k & E1 & E2 & _ & ->).
      split; simpl; [now exists o|].
      intros [H|[H|H]]; congruence.
    + rewrite (start_missing_key _ Hm Hk). split; simpl; [now exists o|].
      intros _. destruct Hnever as (A & B & C); [now right; right|].
      repeat split; assumption.
  - destruct (inflight c) as [|n] eqn:Hn; [now split|].
    destruct (settle_frame outcome (ui c)) as (E1 & E2 & Ea).
    split; cbn [ui inflight]; [rewrite Ea; exact Hact|].
    rewrite E1, E2. intros H. destruct (Hnever H) as (_ & _ & C). congruence.
Qed.

Lemma reachable_page_invariant c : Reachable API_KEY c -> page_invariant API_KEY c.
Proof.
  induction 1 as [|e c _ IH].
  - split; [now exists ShakeHands|]. intros _. now repeat split.
  - now apply page_invariant_step.
Qed.

End Dispatch.

Lemma empty_slot_is_missing_input s :
  image1 s = None \/ image2 s = None -> missing_inputs s = true.
Proof.
  unfold missing_inputs. intros [H|H]; rewrite H; simpl.
  - reflexivity.
  - now destruct (image1 s).
Qed.

Lemma active_after_rejection m s :
  isLoading s = false -> generatedImage s = None -> str_truthy m = true ->
  active_outcomes (setError (Some m) s) = [Failure m].
Proof.
  intros Hl Hg Hm. unfold active_outcomes, rendered. simpl.
  now rewrite Hl, Hg, Hm.
Qed.

Lemma reachable_run API_KEY es c :
  Reachable API_KEY c -> Reachable API_KEY (run API_KEY es c).
Proof.
  revert c. induction es as [|e es IH]; intros c Hc; simpl.
  - exact Hc.
  - apply IH. now constructor.
Qed.

(** What holds of a read that fails on the spot: the message is set and
    nothing else changes. *)
Lemma refused_read_is_reported ty e slot s :
  let s' := after (handleImageChange {| type := ty; reading := ReadThrows e |}
                     (setImage slot) s) in
  error s' = Some "Failed to read image file."
  /\ image1 s' = image1 s /\ image2 s' = image2 s
  /\ generatedImage s' = generatedImage s /\ isLoading s' = isLoading s.
Proof. now repeat split. Qed.

(** While a call is awaited the button is disabled, so nothing but an
    intake failure or the answer changes what is shown. *)
Lemma loading_persists API_KEY between c :
  forallb waiting between = true ->
  isLoading (ui c) = true -> error (ui c) = None ->
  generatedImage (ui c) = None ->
  isLoading (ui (run API_KEY between c)) = true
  /\ error (ui (run API_KEY between c)) = None
  /\ generatedImage (ui (run API_KEY between c)) = None.
Proof.
  revert c. induction between as [|e between IH]; intros c Hw Hl He Hg.
  - now repeat split.
  - cbn [forallb] in Hw. apply andb_true_iff in Hw as (Hwe & Hw).
    cbn [run]. apply IH; [exact Hw| | |];
      destruct e as [slot file|o| |outcome]; cbn [step];
      try discriminate Hwe;
      try (destruct (intake_frame file slot (ui c)) as (_ & El & Eg & _ & _ & Ee);
           cbn [ui]; specialize (Ee Hwe); congruence);
      try (unfold button_disabled; rewrite Hl; cbn; assumption);
      assumption.
Qed.

(** ** Dispatch: claims C2, C4, C6, C7 and C10 *)

(** C2.  In every reachable state of the page, calling the handler with an
    empty image slot, or with no credential configured, makes no call to
    the service and leaves [Failure] as the outcome at once; with an empty
    slot the message is exactly "Please upload both images and select an
    action.", and with both slots filled and no credential it is the
    message about [API_KEY]. *)
Theorem dispatch_without_inputs_or_key_fails :
  forall (API_KEY : option string) (c : Config),
    Reachable API_KEY c ->
    (image1 (ui c) = None \/ image2 (ui c) = None ->
     handleGenerate_start API_KEY (ui c)
     = (setError (Some "Please upload both images and select an action.") (ui c),
        None)
     /\ active_outcomes (fst (handleGenerate_start API_KEY (ui c)))
        = [Failure "Please upload both images and select an action."])
    /\ (truthy API_KEY = false ->
        let m := if missing_inputs (ui c) then MISSING_INPUTS
                 else MISSING_API_KEY in
        handleGenerate_start API_KEY (ui c) = (setError (Some m) (ui c), None)
        /\ active_outcomes (fst (handleGenerate_start API_KEY (ui c)))
           = [Failure m]).
Proof.
  intros API_KEY c Hreach.
  destruct (reachable_page_invariant API_KEY c Hreach) as (_ & Hnever).
  split.
  - intros Hslot.
    rewrite (start_missing_inputs API_KEY _ (empty_slot_is_missing_input _ Hslot)).
    split; [reflexivity|]. simpl.
    destruct Hnever as (Hl & Hg & _); [tauto|].
    now apply active_after_rejection.
  - intros Hk m. destruct Hnever as (Hl & Hg & _); [tauto|].
    subst m. destruct (missing_inputs (ui c)) eqn:Hm.
    + rewrite (start_missing_inputs API_KEY _ Hm). split; [reflexivity|].
      now apply active_after_rejection.
    + rewrite (start_missing_key API_KEY _ Hm Hk). split; [reflexivity|].
      now apply active_after_rejection.
Qed.

Lemma dispatch_without_inputs_or_key_fails_witness :
  handleGenerate_start sample_key
    (ui (step sample_key (FileChosen Person1 (png "QUJD")) initialConfig))
  = (setError (Some "Please upload both images and select an action.")
       (ui (step sample_key (FileChosen Person1 (png "QUJD")) initialConfig)),
     None).
Proof.
  destruct (dispatch_without_inputs_or_key_fails sample_key
              (step sample_key (FileChosen Person1 (png "QUJD")) initialConfig)
              (reach_step sample_key _ _ (reach_init sample_key)))
    as (Hslot & _).
  destruct Hslot as (Hstart & _).
  - right. reflexivity.
  - exact Hstart.
Defined.

(** C4, as amended.  A dispatch that passes the preconditions makes the
    call and turns the outcome into [Loading].  However the call settles
    (image found, no image found, exception thrown), and from whatever
    state, the loading flag is cleared and [Loading] is no longer shown.
    When no image-intake failure was raised while the call was awaited,
    the outcome stays [Loading] until the answer and is then a single
    [Success] or a single [Failure]. *)
Theorem dispatch_loads_then_settles :
  forall (API_KEY : option string) (s : State),
    preconditions API_KEY s ->
    (exists call, handleGenerate_start API_KEY s = (begin_loading s, Some call))
    /\ active_outcomes (begin_loading s) = [Loading]
    /\ (forall between outcome,
          forallb waiting between = true ->
          let s1 := ui (run API_KEY between
                          {| ui := begin_loading s; inflight := 1 |}) in
          let s2 := handleGenerate_settle outcome s1 in
          active_outcomes s1 = [Loading]
          /\ isLoading s2 = false
          /\ ((exists url, active_outcomes s2 = [Success url])
              \/ (exists m, active_outcomes s2 = [Failure m])))
    /\ (forall outcome s0,
          isLoading (handleGenerate_settle outcome s0) = false
          /\ ~ In Loading (rendered (handleGenerate_settle outcome s0))).
Proof.
  intros API_KEY s Hpre.
  destruct (preconditions_pass API_KEY s Hpre) as (Hm & Hk).
  destruct (start_passes API_KEY s Hm Hk) as (i1 & i2 & k & _ & _ & _ & Hstart).
  split; [eexists; exact Hstart|].
  split; [reflexivity|].
  split.
  - intros between outcome Hw s1 s2.
    destruct (loading_persists API_KEY between
                {| ui := begin_loading s; inflight := 1 |} Hw
                eq_refl eq_refl eq_refl) as (Hl & He & Hg).
    fold s1 in Hl, He, Hg.
    split; [|split; [reflexivity|]].
    + unfold active_outcomes, rendered. now rewrite Hl, He, Hg.
    + subst s2.
      destruct (settle_cases outcome s1) as [(url & Hu & ->)|(m & Hmsg & ->)];
        [left; exists url|right; exists m];
        unfold active_outcomes, rendered; cbn; rewrite ?He, ?Hg, ?Hu, ?Hmsg;
        reflexivity.
  - intros outcome s0. split; [reflexivity|].
    destruct (settle_cases outcome s0) as [(url & _ & ->)|(m & _ & ->)];
      unfold rendered; simpl; intros Hin;
      repeat match goal with
             | H : In _ (_ ++ _) |- _ => apply in_app_or in H; destruct H
             | H : In _ (match ?x with _ => _ end) |- _ => destruct x
             | H : In _ (if ?b then _ else _) |- _ => destruct b
             | H : In _ (_ :: _) |- _ => destruct H; try discriminate
             | H : In _ [] |- _ => destruct H
             end.
Qed.

Lemma dispatch_loads_then_settles_witness :
  preconditions sample_key both_loaded
  /\ active_outcomes
       (ui (run sample_key [ActionChosen ShakeHands; ButtonClicked]
              {| ui := begin_loading both_loaded; inflight := 1 |}))
     = [Loading]
  /\ isLoading
       (handleGenerate_settle (Genai.Rejected {| message := "fetch failed" |})
          (ui (run sample_key [ActionChosen ShakeHands; ButtonClicked]
                 {| ui := begin_loading both_loaded; inflight := 1 |})))
     = false.
Proof.
  assert (Hpre : preconditions sample_key both_loaded).
  { repeat split; discriminate. }
  split; [exact Hpre|].
  destruct (dispatch_loads_then_settles sample_key both_loaded Hpre)
    as (_ & _ & Hsettle & _).
  destruct (Hsettle [ActionChosen ShakeHands; ButtonClicked]
              (Genai.Rejected {| message := "fetch failed" |}) eq_refl)
    as (Hload & Hdone & _).
  split; [exact Hload|exact Hdone].
Defined.

(** C4, as stated, fails: on a reachable run, a dispatch passes the
    preconditions, a file the reader refuses is picked while the call is
    awaited, and the call then settles with an image; the page is left
    showing the intake message and the image, not exactly one of
    [Success] and [Failure]. *)
Lemma refused_file_before_the_answer_leaves_two_outcomes :
  preconditions sample_key
    (ui (run sample_key
           [FileChosen Person1 (png "QUJD"); FileChosen Person2 (png "REVG")]
           initialConfig))
  /\ Reachable sample_key (run sample_key refused_file_then_image initialConfig)
  /\ inflight (run sample_key refused_file_then_image initialConfig) = 0
  /\ active_outcomes (ui (run sample_key refused_file_then_image initialConfig))
     = [Failure "Failed to read image file.";
        Success "data:image/png;base64,R0lG"]
  /\ ~ ((exists url,
           active_outcomes
             (ui (run sample_key refused_file_then_image initialConfig))
           = [Success url])
        \/ (exists m,
              active_outcomes
                (ui (run sample_key refused_file_then_image initialConfig))
              = [Failure m])).
Proof.
  split; [repeat split; discriminate|].
  split; [apply reachable_run; constructor|].
  split; [reflexivity|]. split; [reflexivity|].
  intros [(url & H)|(m & H)]; discriminate H.
Qed.

(** C6.  A dispatch that starts a new request, that is, one that passes
    the preconditions, turns the outcome into [Loading] whatever the
    outcome was before: the loading flag is set, and the image and the
    message of an earlier result are both cleared in the same update, so
    that [Loading] alone is shown. *)
Theorem passing_dispatch_resets_to_loading :
  forall (API_KEY : option string) (s : State),
    preconditions API_KEY s ->
    let s' := fst (handleGenerate_start API_KEY s) in
    isLoading s' = true /\ error s' = None /\ generatedImage s' = None
    /\ active_outcomes s' = [Loading].
Proof.
  intros API_KEY s Hpre s'. subst s'.
  destruct (preconditions_pass API_KEY s Hpre) as (Hm & Hk).
  destruct (start_passes API_KEY s Hm Hk) as (i1 & i2 & k & _ & _ & _ & ->).
  now repeat split.
Qed.

Lemma passing_dispatch_resets_to_loading_witness :
  preconditions sample_key
    (setGeneratedImage (Some "data:image/png;base64,R0lG") both_loaded)
  /\ active_outcomes
       (fst (handleGenerate_start sample_key
               (setGeneratedImage (Some "data:image/png;base64,R0lG") both_loaded)))
     = [Loading].
Proof.
  assert (Hpre : preconditions sample_key
                   (setGeneratedImage (Some "data:image/png;base64,R0lG") both_loaded)).
  { repeat split; discriminate. }
  split; [exact Hpre|].
  exact (proj2 (proj2 (proj2
           (passing_dispatch_resets_to_loading sample_key _ Hpre)))).
Defined.

(** C7.  Whenever the handler makes the call, the request carries exactly
    three parts, in this order: the inline data of image 1 (its base64
    body and MIME type), the inline data of image 2, and the text prompt;
    the prompt is the fixed sentence with the selected action inserted as
    it is; and the only response modality asked for is [IMAGE]. *)
Theorem request_is_two_images_then_prompt :
  forall (API_KEY : option string) (s s' : State) (call : Genai.Call),
    handleGenerate_start API_KEY s = (s', Some call) ->
    exists img1 img2,
      image1 s = Some img1 /\ image2 s = Some img2
      /\ Genai.contents (Genai.params call)
         = [Genai.InlineData (base64 img1) (mimeType img1);
            Genai.InlineData (base64 img2) (mimeType img2);
            Genai.Text
              ("From the two images provided, create a new photorealistic image where the person from the first image and the person from the second image are "
               ++ selectedAction s
               ++ ". The background should be neutral and the interaction between the two people should look natural and believable.")]
      /\ Genai.responseModalities (Genai.params call) = [Genai.IMAGE]
      /\ Genai.model (Genai.params call) = "gemini-2.5-flash-image".
Proof.
  intros API_KEY s s' call Hstart.
  destruct (missing_inputs s) eqn:Hm.
  - rewrite (start_missing_inputs API_KEY s Hm) in Hstart. discriminate Hstart.
  - destruct (truthy API_KEY) eqn:Hk.
    + destruct (start_passes API_KEY s Hm Hk) as (i1 & i2 & k & E1 & E2 & _ & E).
      rewrite E in Hstart. inversion Hstart; subst.
      exists i1, i2. now repeat split.
    + rewrite (start_missing_key API_KEY s Hm Hk) in Hstart. discriminate Hstart.
Qed.

Lemma request_is_two_images_then_prompt_witness :
  exists call,
    handleGenerate_start sample_key both_loaded = (begin_loading both_loaded, Some call)
    /\ Genai.contents (Genai.params call)
       = [Genai.InlineData (Some "QUJD") "image/png";
          Genai.InlineData (Some "REVG") "image/jpeg";
          Genai.Text "From the two images provided, create a new photorealistic image where the person from the first image and the person from the second image are hugging each other. The background should be neutral and the interaction between the two people should look natural and believable."].
Proof.
  eexists. split; [reflexivity|].
  destruct (request_is_two_images_then_prompt sample_key both_loaded _ _ eq_refl)
    as (i1 & i2 & E1 & E2 & Hparts & _).
  injection E1 as <-. injection E2 as <-. exact Hparts.
Defined.

(** C10.  In every reachable state the selected action is one of the three
    option values, hence not empty; so when both slots are filled the
    guard for missing inputs is false and a dispatch does not end with
    the missing-inputs message. *)
Theorem selected_action_is_never_empty :
  forall (API_KEY : option string) (c : Config),
    Reachable API_KEY c ->
    selectedAction (ui initialConfig) = "shaking hands"
    /\ In (selectedAction (ui c))
         ["shaking hands"; "hugging each other"; "saluting each other"]
    /\ selectedAction (ui c) <> ""
    /\ (image1 (ui c) <> None -> image2 (ui c) <> None ->
        missing_inputs (ui c) = false
        /\ error (fst (handleGenerate_start API_KEY (ui c)))
           <> Some "Please upload both images and select an action.").
Proof.
  intros API_KEY c Hreach.
  destruct (reachable_page_invariant API_KEY c Hreach) as ((o & Ho) & _).
  assert (Ha : str_truthy (selectedAction (ui c)) = true)
    by (rewrite Ho; apply value_truthy).
  split; [reflexivity|]. split; [|split].
  - rewrite Ho. destruct o; simpl; auto.
  - now apply str_truthy_nonempty.
  - intros H1 H2.
    assert (Hm : missing_inputs (ui c) = false)
      by now apply selected_action_passes.
    split; [exact Hm|].
    destruct (truthy API_KEY) eqn:Hk.
    + destruct (start_passes API_KEY _ Hm Hk) as (i1 & i2 & k & _ & _ & _ & ->).
      discriminate.
    + rewrite (start_missing_key API_KEY _ Hm Hk). discriminate.
Qed.

Lemma selected_action_is_never_empty_witness :
  selectedAction
    (ui (step sample_key (ActionChosen SaluteEachOther) initialConfig))
  <> "".
Proof.
  exact (proj1 (proj2 (proj2
           (selected_action_is_never_empty sample_key
              (step sample_key (ActionChosen SaluteEachOther) initialConfig)
              (reach_step sample_key _ _ (reach_init sample_key)))))).
Defined.

(** ** Exclusivity of the outcome: claim C5 *)

Lemma quiet_reachable_is_reachable API_KEY c :
  QuietReachable API_KEY c -> Reachable API_KEY c.
Proof. induction 1; now constructor. Qed.

Lemma exclusive_invariant_step API_KEY e c :
  quiet e = true ->
  exclusive_invariant API_KEY c ->
  exclusive_invariant API_KEY (step API_KEY e c).
Proof.
  intros Hq (Ha & Hphase). destruct e as [slot file|o| |outcome]; cbn [step].
  - destruct (intake_frame file slot (ui c)) as (Ea & El & Eg & _ & _ & Ee).
    specialize (Ee Hq). unfold exclusive_invariant. cbn [ui inflight].
    rewrite Ea, El, Eg, Ee. now split.
  - split; [apply value_truthy|exact Hphase].
  - destruct (button_disabled (ui c)) eqn:Hb; [now split|].
    destruct (enabled_button _ Hb) as (Hl & H1 & H2).
    pose proof (selected_action_passes _ Ha H1 H2) as Hm.
    destruct Hphase as [(Hl' & _)|(_ & Hn & _ & Hg)]; [congruence|].
    destruct (truthy API_KEY) eqn:Hk.
    + destruct (start_passes API_KEY _ Hm Hk) as (i1 & i2 & k & _ & _ & _ & ->).
      split; [exact Ha|]. left. cbn. rewrite Hn. repeat split; assumption.
    + rewrite (start_missing_key API_KEY _ Hm Hk).
      split; [exact Ha|]. right. cbn. specialize (Hg eq_refl).
      repeat split; auto.
  - destruct (inflight c) as [|n] eqn:Hn;
      [unfold exclusive_invariant; rewrite Hn; now split|].
    destruct Hphase as [(_ & Hone & He & Hg & Hk)|(_ & Hzero & _)];
      [|discriminate].
    injection Hone as ->.
    destruct (settle_frame outcome (ui c)) as (_ & _ & Ea).
    split; cbn [ui inflight]; [now rewrite Ea|]. right.
    destruct (settle_cases outcome (ui c)) as [(url & _ & ->)|(m & _ & ->)]; cbn.
    + repeat split; auto. congruence.
    + repeat split; auto.
Qed.

Lemma quiet_reachable_exclusive API_KEY c :
  QuietReachable API_KEY c -> exclusive_invariant API_KEY c.
Proof.
  induction 1 as [|e c Hq _ IH].
  - split; [reflexivity|]. right. cbn. auto.
  - now apply exclusive_invariant_step.
Qed.

(** C5, as amended.  In every state the page reaches through action
    selections, file reads that raise no intake failure, clicks on the
    button and settled calls, exactly one outcome variant is active:
    while loading there is neither image nor message, and an image and a
    message are never held together. *)
Theorem quiet_page_shows_one_outcome :
  forall (API_KEY : option string) (c : Config),
    QuietReachable API_KEY c ->
    (exists o, active_outcomes (ui c) = [o])
    /\ (isLoading (ui c) = true ->
        error (ui c) = None /\ generatedImage (ui c) = None)
    /\ (error (ui c) = None \/ generatedImage (ui c) = None).
Proof.
  intros API_KEY c Hreach.
  destruct (quiet_reachable_exclusive API_KEY c Hreach)
    as (_ & [(Hl & _ & He & Hg & _)|(Hl & _ & Hone & _)]).
  - repeat split; auto. exists Loading.
    unfold active_outcomes, rendered. now rewrite Hl, He, Hg.
  - repeat split; try congruence; auto.
    unfold active_outcomes, rendered. rewrite Hl.
    destruct Hone as [H|H]; rewrite H; simpl.
    + destruct (generatedImage (ui c)) as [url|]; [|now exists Idle].
      destruct (str_truthy url); [now exists (Success url)|now exists Idle].
    + destruct (error (ui c)) as [m|]; [|now exists Idle].
      destruct (str_truthy m); simpl; [now exists (Failure m)|now exists Idle].
Qed.

Lemma quiet_page_shows_one_outcome_witness :
  active_outcomes
    (ui (step sample_key (CallSettled (Genai.Resolved one_image))
           (step sample_key ButtonClicked
              (step sample_key (FileChosen Person2 (png "REVG"))
                 (step sample_key (FileChosen Person1 (png "QUJD"))
                    initialConfig)))))
  = [Success "data:image/png;base64,R0lG"].
Proof.
  destruct (quiet_page_shows_one_outcome sample_key _
              (quiet_step sample_key (CallSettled (Genai.Resolved one_image)) _ eq_refl
                 (quiet_step sample_key ButtonClicked _ eq_refl
                    (quiet_step sample_key (FileChosen Person2 (png "REVG")) _ eq_refl
                       (quiet_step sample_key (FileChosen Person1 (png "QUJD")) _ eq_refl
                          (quiet_init sample_key))))))
    as ((o & Ho) & _).
  rewrite Ho. injection Ho as <-. reflexivity.
Defined.

(** C5, as stated, fails: after a fusion has succeeded, a file the reader
    refuses puts the intake message next to the image, and one refused
    while a call is awaited puts it next to the loading indicator. *)
Lemma image_and_error_are_shown_together :
  Reachable sample_key (run sample_key success_then_refused_file initialConfig)
  /\ active_outcomes (ui (run sample_key success_then_refused_file initialConfig))
     = [Failure "Failed to read image file.";
        Success "data:image/png;base64,R0lG"]
  /\ Reachable sample_key (run sample_key refused_file_while_loading initialConfig)
  /\ active_outcomes (ui (run sample_key refused_file_while_loading initialConfig))
     = [Loading; Failure "Failed to read image file."].
Proof.
  split; [apply reachable_run; constructor|].
  split; [reflexivity|].
  split; [apply reachable_run; constructor|reflexivity].
Qed.

(** ** Image intake: claim C8 *)

(** C8 does not hold of a read that fails after it was started: [loadend]
    fires with a [null] result, the callback throws outside the [try]
    block, and the page is left as it was, with no message set.  Only the
    slot-related parts of the claim hold there. *)
Theorem failed_read_at_loadend_is_not_reported :
  (forall ty slot s,
     let r := handleImageChange {| type := ty; reading := LoadEnd None |}
                (setImage slot) s in
     after r = s /\ error (after r) = error s /\ uncaught r <> None)
  /\ error (after (handleImageChange unreadable (setImage Person1) initialState))
     = None
  /\ active_outcomes
       (after (handleImageChange unreadable (setImage Person1) initialState))
     = [Idle].
Proof.
  split; [|split; reflexivity].
  intros ty slot s r. subst r. repeat split. discriminate.
Qed.

(** * Beyond the claims: intake, the uploader and the page as a whole *)

(** ** Strings and [split] *)

Lemma string_app_assoc (a b c : string) : (a ++ b) ++ c = a ++ (b ++ c).
Proof. induction a as [|x a IH]; simpl; [reflexivity|now rewrite IH]. Qed.

Lemma without_comma_app (a b : string) :
  without_comma (a ++ b) = without_comma a && without_comma b.
Proof.
  induction a as [|x a IH]; simpl; [reflexivity|].
  rewrite IH. now rewrite andb_assoc.
Qed.

Lemma split_whole (s : string) :
  without_comma s = true -> split "," s = [s].
Proof.
  induction s as [|x s IH]; simpl; [reflexivity|].
  intros H. apply andb_true_iff in H as (Hx & Hs).
  apply negb_true_iff in Hx. rewrite Hx, (IH Hs). reflexivity.
Qed.

Lemma split_at_first_comma (a b : string) :
  without_comma a = true ->
  split "," (a ++ String "," b) = a :: split "," b.
Proof.
  induction a as [|x a IH]; simpl; [reflexivity|].
  intros H. apply andb_true_iff in H as (Hx & Ha).
  apply negb_true_iff in Hx. rewrite Hx, (IH Ha). reflexivity.
Qed.

Lemma data_url_split (ty body : string) :
  without_comma ty = true -> without_comma body = true ->
  nth_error (split "," ("data:" ++ ty ++ ";base64," ++ body)) 1 = Some body.
Proof.
  intros Hty Hbody.
  replace ("data:" ++ ty ++ ";base64," ++ body)
    with (("data:" ++ ty ++ ";base64") ++ String "," body).
  - rewrite split_at_first_comma, (split_whole body Hbody); [reflexivity|].
    change (without_comma ("data:" ++ ty ++ ";base64"))
      with (without_comma (ty ++ ";base64")).
    rewrite without_comma_app, Hty. reflexivity.
  - rewrite !string_app_assoc. reflexivity.
Qed.

Lemma slotImage_setImage slot v s : slotImage slot (setImage slot v s) = v.
Proof. now destruct slot. Qed.

(** An intake leaves the message alone or sets the intake message. *)
Lemma intake_error file slot s :
  error (after (handleImageChange file (setImage slot) s)) = error s
  \/ error (after (handleImageChange file (setImage slot) s))
     = Some "Failed to read image file.".
Proof.
  unfold handleImageChange.
  destruct (reading file) as [e|[dataUrl|]]; destruct slot; simpl; auto.
Qed.

Lemma start_frame API_KEY s :
  image1 (fst (handleGenerate_start API_KEY s)) = image1 s
  /\ image2 (fst (handleGenerate_start API_KEY s)) = image2 s
  /\ selectedAction (fst (handleGenerate_start API_KEY s)) = selectedAction s.
Proof.
  destruct (missing_inputs s) eqn:Hm.
  - rewrite (start_missing_inputs API_KEY s Hm). now repeat split.
  - destruct (truthy API_KEY) eqn:Hk.
    + destruct (start_passes API_KEY s Hm Hk) as (i1 & i2 & k & _ & _ & _ & ->).
      now repeat split.
    + rewrite (start_missing_key API_KEY s Hm Hk). now repeat split.
Qed.

(** ** Image intake and preview *)

(** X1.  Picking a file whose read gives [data:<type>;base64,<body>], with
    the file's own type and no comma in type or body, stores exactly
    [{ base64: body, mimeType: type }] in the slot, and the preview URL
    built from the slot is the data URL that was read.  Files after the
    first in the selection are not looked at. *)
Theorem upload_then_preview_round_trip :
  forall (slot : Slot) (file : File) (others : list File) (body : string)
         (s : State),
    without_comma (type file) = true ->
    without_comma body = true ->
    reading file = LoadEnd (Some ("data:" ++ type file ++ ";base64," ++ body)) ->
    let s' := after (handleFileChange (Some (file :: others))
                       (onImageChange slot) s) in
    slotImage slot s' = Some {| base64 := Some body; mimeType := type file |}
    /\ previewUrl (slotImage slot s')
       = Some ("data:" ++ type file ++ ";base64," ++ body).
Proof.
  intros slot file others body s Hty Hbody Hread s'.
  assert (Hslot : slotImage slot s'
                  = Some {| base64 := Some body; mimeType := type file |}).
  { subst s'. unfold handleFileChange, onImageChange, handleImageChange.
    rewrite Hread. unfold onloadend.
    rewrite (data_url_split (type file) body Hty Hbody).
    cbn [after]. apply slotImage_setImage. }
  split; [exact Hslot|]. rewrite Hslot. reflexivity.
Qed.

Lemma upload_then_preview_round_trip_witness :
  previewUrl
    (image2 (after (handleFileChange (Some [jpeg "REVG"; png "QUJD"])
                      (onImageChange Person2) initialState)))
  = Some "data:image/jpeg;base64,REVG".
Proof.
  exact (proj2 (upload_then_preview_round_trip Person2 (jpeg "REVG")
                  [png "QUJD"] "REVG" initialState eq_refl eq_refl eq_refl)).
Defined.

(** X2.  A read whose result has no comma is not rejected: the slot is
    filled with an [undefined] base64 body, no message is set, and the
    preview URL ends in the word [undefined]. *)
Theorem result_without_comma_fills_the_slot :
  forall (slot : Slot) (file : File) (dataUrl : string) (s : State),
    without_comma dataUrl = true ->
    reading file = LoadEnd (Some dataUrl) ->
    let r := handleImageChange file (setImage slot) s in
    slotImage slot (after r) = Some {| base64 := None; mimeType := type file |}
    /\ previewUrl (slotImage slot (after r))
       = Some ("data:" ++ type file ++ ";base64,undefined")
    /\ error (after r) = error s
    /\ uncaught r = None.
Proof.
  intros slot file dataUrl s Hfree Hread r.
  assert (Hr : r = {| after := setImage slot
                                (Some {| base64 := None; mimeType := type file |}) s;
                      uncaught := None |}).
  { subst r. unfold handleImageChange. rewrite Hread. unfold onloadend.
    rewrite (split_whole dataUrl Hfree). reflexivity. }
  rewrite Hr. cbn [after uncaught]. rewrite slotImage_setImage.
  repeat split. now destruct slot.
Qed.

Lemma result_without_comma_fills_the_slot_witness :
  image1 (after (handleImageChange empty_file setImage1 initialState))
  = Some {| base64 := None; mimeType := "" |}.
Proof.
  exact (proj1 (result_without_comma_fills_the_slot Person1 empty_file "data:"
                  initialState eq_refl eq_refl)).
Defined.

(** X3.  The intakes of the two slots do not interfere: whatever the two
    reads do, running them in either order leaves the same state. *)
Theorem intakes_of_the_two_slots_commute :
  forall (file1 file2 : File) (s : State),
    after (handleImageChange file2 setImage2
             (after (handleImageChange file1 setImage1 s)))
    = after (handleImageChange file1 setImage1
               (after (handleImageChange file2 setImage2 s))).
Proof.
  intros file1 file2 s. unfold handleImageChange, onloadend.
  destruct (reading file1) as [e1|[u1|]], (reading file2) as [e2|[u2|]];
    reflexivity.
Qed.

(** X4.  The last file read into a slot wins: when an intake that raised no
    message is followed by a completed read into the same slot, the state
    is the one the second intake alone gives. *)
Theorem last_upload_into_a_slot_wins :
  forall (slot : Slot) (file1 file2 : File) (result1 : option string)
         (dataUrl2 : string) (s : State),
    reading file1 = LoadEnd result1 ->
    reading file2 = LoadEnd (Some dataUrl2) ->
    after (handleImageChange file2 (setImage slot)
             (after (handleImageChange file1 (setImage slot) s)))
    = after (handleImageChange file2 (setImage slot) s).
Proof.
  intros slot file1 file2 result1 dataUrl2 s H1 H2.
  unfold handleImageChange, onloadend. rewrite H1, H2.
  destruct result1, slot; reflexivity.
Qed.

Lemma last_upload_into_a_slot_wins_witness :
  after (handleImageChange (jpeg "REVG") (setImage Person1)
           (after (handleImageChange (png "QUJD") (setImage Person1) initialState)))
  = after (handleImageChange (jpeg "REVG") (setImage Person1) initialState).
Proof.
  exact (last_upload_into_a_slot_wins Person1 (png "QUJD") (jpeg "REVG")
           _ _ initialState eq_refl eq_refl).
Defined.

(** X5.  No event empties a slot: a slot that holds an image still holds
    one after any sequence of events, from any configuration. *)
Theorem populated_slot_stays_populated :
  forall (API_KEY : option string) (es : list Event) (c : Config) (slot : Slot),
    slotImage slot (ui c) <> None ->
    slotImage slot (ui (run API_KEY es c)) <> None.
Proof.
  intros API_KEY es. induction es as [|e es IH]; intros c slot Hc; [exact Hc|].
  cbn [run]. apply IH. intros Hnone. apply Hc. clear IH Hc.
  destruct e as [slot' file|o| |outcome]; cbn [step] in Hnone.
  - destruct (intake_frame file slot' (ui c)) as (_ & _ & _ & E1 & E2 & _).
    destruct slot; cbn [ui slotImage] in *; auto.
  - destruct slot; exact Hnone.
  - destruct (button_disabled (ui c)); [exact Hnone|].
    destruct (start_frame API_KEY (ui c)) as (E1 & E2 & _).
    destruct (handleGenerate_start API_KEY (ui c)) as [s' call].
    cbn [fst ui] in *. destruct slot; cbn [slotImage] in *; congruence.
  - destruct (inflight c); [exact Hnone|].
    destruct (settle_frame outcome (ui c)) as (E1 & E2 & _).
    destruct slot; cbn [ui slotImage] in *; congruence.
Qed.

Lemma populated_slot_stays_populated_witness :
  image1 (ui (run sample_key
                [ButtonClicked; FileChosen Person1 unreadable;
                 CallSettled (Genai.Resolved words_only)]
                {| ui := both_loaded; inflight := 0 |}))
  <> None.
Proof.
  apply (populated_slot_stays_populated sample_key
           [ButtonClicked; FileChosen Person1 unreadable;
            CallSettled (Genai.Resolved words_only)]
           {| ui := both_loaded; inflight := 0 |} Person1).
  discriminate.
Defined.

(** ** The page as a whole *)

Lemma present_kept {A : Type} (before after' : option A) :
  (after' = None -> before = None) -> present before = true ->
  present after' = true.
Proof.
  intros Hkeep Hb. destruct after'; [reflexivity|].
  rewrite (Hkeep eq_refl) in Hb. discriminate Hb.
Qed.

Lemma present_not_none {A : Type} (v : option A) :
  v <> None -> present v = true.
Proof. destruct v; [reflexivity|contradiction]. Qed.

Lemma intake_data_url slot file body s :
  without_comma (type file) = true -> without_comma body = true ->
  reading file = LoadEnd (Some ("data:" ++ type file ++ ";base64," ++ body)) ->
  after (handleImageChange file (setImage slot) s)
  = setImage slot (Some {| base64 := Some body; mimeType := type file |}) s.
Proof.
  intros Hty Hbody Hread. unfold handleImageChange. rewrite Hread.
  unfold onloadend. now rewrite (data_url_split (type file) body Hty Hbody).
Qed.

Lemma overlap_invariant_step API_KEY e c :
  overlap_invariant API_KEY c -> overlap_invariant API_KEY (step API_KEY e c).
Proof.
  intros (Ha & Hphase). destruct e as [slot file|o| |outcome]; cbn [step].
  - destruct (intake_frame file slot (ui c)) as (Ea & El & Eg & E1 & E2 & _).
    pose proof (intake_error file slot (ui c)) as Herr.
    unfold overlap_invariant. cbn [ui inflight]. rewrite Ea, El, Eg.
    split; [exact Ha|].
    destruct Hphase as [(Hl & Hn & He & Hg & P1 & P2 & Hk)|(Hl & Hn & Hd & Hkg)].
    + left. repeat split; auto.
      * destruct Herr as [-> | ->]; [exact He|now right].
      * exact (present_kept _ _ E1 P1).
      * exact (present_kept _ _ E2 P2).
    + right. repeat split; auto.
      destruct Herr as [-> | ->]; [exact Hd|left; now right].
  - split; [apply value_truthy|exact Hphase].
  - destruct (button_disabled (ui c)) eqn:Hb; [now split|].
    destruct (enabled_button _ Hb) as (Hl & H1 & H2).
    pose proof (selected_action_passes _ Ha H1 H2) as Hm.
    destruct Hphase as [(Hl' & _)|(_ & Hn & _ & Hg)]; [congruence|].
    destruct (truthy API_KEY) eqn:Hk.
    + destruct (start_passes API_KEY _ Hm Hk) as (i1 & i2 & k & _ & _ & _ & ->).
      split; [exact Ha|]. left. cbn. rewrite Hn.
      repeat split; try assumption; try (now left);
        now apply present_not_none.
    + rewrite (start_missing_key API_KEY _ Hm Hk).
      split; [exact Ha|]. right. cbn. specialize (Hg eq_refl).
      repeat split; auto.
  - destruct (inflight c) as [|n] eqn:Hn;
      [unfold overlap_invariant; rewrite Hn; now split|].
    destruct Hphase as [(_ & Hone & He & Hg & _ & _ & Hk)|(_ & Hzero & _)];
      [|discriminate].
    injection Hone as ->.
    destruct (settle_frame outcome (ui c)) as (_ & _ & Ea).
    split; cbn [ui inflight]; [now rewrite Ea|]. right.
    destruct (settle_cases outcome (ui c)) as [(url & _ & ->)|(m & _ & ->)]; cbn.
    + repeat split; auto. congruence.
    + repeat split; auto.
Qed.

Lemma reachable_overlap_invariant API_KEY c :
  Reachable API_KEY c -> overlap_invariant API_KEY c.
Proof.
  induction 1 as [|e c _ IH].
  - split; [reflexivity|]. right. cbn. repeat split; auto.
  - now apply overlap_invariant_step.
Qed.

(** X6.  At most one call is ever awaited: in every reachable
    configuration the number of calls in flight is 0 or 1, the loading
    flag is set exactly when one is awaited, and a click while one is
    awaited changes nothing. *)
Theorem one_call_at_a_time :
  forall (API_KEY : option string) (c : Config),
    Reachable API_KEY c ->
    inflight c <= 1
    /\ (isLoading (ui c) = true <-> inflight c = 1)
    /\ (inflight c = 1 -> step API_KEY ButtonClicked c = c).
Proof.
  intros API_KEY c Hreach.
  destruct (reachable_overlap_invariant API_KEY c Hreach)
    as (_ & [(Hl & Hn & _)|(Hl & Hn & _)]); rewrite Hn, Hl.
  - repeat split; auto. intros _. cbn [step]. unfold button_disabled.
    now rewrite Hl.
  - repeat split; auto; discriminate.
Qed.

Lemma one_call_at_a_time_witness :
  step sample_key ButtonClicked (run sample_key awaiting_answer initialConfig)
  = run sample_key awaiting_answer initialConfig.
Proof.
  exact (proj2 (proj2
           (one_call_at_a_time sample_key
              (run sample_key awaiting_answer initialConfig)
              (reachable_run sample_key awaiting_answer initialConfig
                 (reach_init sample_key))))
           eq_refl).
Defined.

(** X7.  What can be shown together.  In every reachable state the spinner
    and a generated image never coexist, and the result section shows
    either a single outcome, or the intake failure message beside the
    spinner, or the intake failure message beside the generated image;
    no other message is ever shown beside the spinner or an image. *)
Theorem only_the_intake_message_overlaps :
  forall (API_KEY : option string) (c : Config),
    Reachable API_KEY c ->
    (isLoading (ui c) = true -> generatedImage (ui c) = None)
    /\ ((exists o, active_outcomes (ui c) = [o])
        \/ active_outcomes (ui c)
           = [Loading; Failure "Failed to read image file."]
        \/ (exists url,
              active_outcomes (ui c)
              = [Failure "Failed to read image file."; Success url])).
Proof.
  intros API_KEY c Hreach.
  destruct (reachable_overlap_invariant API_KEY c Hreach)
    as (_ & [(Hl & _ & He & Hg & _)|(Hl & _ & Hd & _)]).
  - split; [intros _; exact Hg|].
    unfold active_outcomes, rendered. rewrite Hl, Hg.
    destruct He as [-> | ->]; [left; now exists Loading|right; now left].
  - split; [congruence|].
    unfold active_outcomes, rendered. rewrite Hl.
    destruct Hd as [[-> | ->] | ->]; cbn.
    + left. destruct (generatedImage (ui c)) as [url|]; [|now exists Idle].
      destruct (str_truthy url); [now exists (Success url)|now exists Idle].
    + destruct (generatedImage (ui c)) as [url|]; [|left; eexists; reflexivity].
      destruct (str_truthy url); [|left; eexists; reflexivity].
      right. right. now exists url.
    + left. destruct (error (ui c)) as [m|]; [|now exists Idle].
      destruct (str_truthy m); cbn; [now exists (Failure m)|now exists Idle].
Qed.

Lemma only_the_intake_message_overlaps_witness :
  generatedImage (ui (run sample_key refused_file_while_loading initialConfig))
  = None.
Proof.
  exact (proj1
           (only_the_intake_message_overlaps sample_key
              (run sample_key refused_file_while_loading initialConfig)
              (reachable_run sample_key refused_file_while_loading initialConfig
                 (reach_init sample_key)))
           eq_refl).
Defined.

Lemma awaited_call API_KEY c :
  Reachable API_KEY c -> inflight c = 1 ->
  str_truthy (selectedAction (ui c)) = true
  /\ isLoading (ui c) = true /\ generatedImage (ui c) = None
  /\ present (image1 (ui c)) = true /\ present (image2 (ui c)) = true
  /\ truthy API_KEY = true.
Proof.
  intros Hreach Hone.
  destruct (reachable_overlap_invariant API_KEY c Hreach)
    as (Ha & [(Hl & _ & _ & Hg & P1 & P2 & Hk)|(_ & Hzero & _)]);
    [now repeat split|congruence].
Qed.

(** X8.  A failed call replaces whatever message was shown.  When a call
    is awaited in a reachable configuration and it is rejected, the
    result section shows exactly the failure "An error occurred: "
    followed by the error's own message; when it resolves without an
    inline image in the first candidate, exactly the no-image failure.
    In both cases no image is stored and no call remains awaited. *)
Theorem failed_call_shows_its_own_message :
  forall (API_KEY : option string) (c : Config),
    Reachable API_KEY c ->
    inflight c = 1 ->
    (forall err,
       let c' := step API_KEY (CallSettled (Genai.Rejected err)) c in
       active_outcomes (ui c') = [Failure ("An error occurred: " ++ message err)]
       /\ generatedImage (ui c') = None /\ inflight c' = 0)
    /\ (forall r,
          Forall imageless (response_parts r) ->
          let c' := step API_KEY (CallSettled (Genai.Resolved r)) c in
          active_outcomes (ui c')
          = [Failure "The model did not return an image. Please try a different prompt or images."]
          /\ generatedImage (ui c') = None /\ inflight c' = 0).
Proof.
  intros API_KEY c Hreach Hone.
  destruct (awaited_call API_KEY c Hreach Hone) as (_ & _ & Hg & _).
  split.
  - intros err c'. subst c'. cbn [step]. rewrite Hone. cbn [ui inflight].
    unfold handleGenerate_settle, active_outcomes, rendered. cbn.
    rewrite Hg. now repeat split.
  - intros r Hr c'. subst c'. cbn [step]. rewrite Hone. cbn [ui inflight].
    rewrite (settle_no_image r (ui c) Hr).
    unfold active_outcomes, rendered. cbn. rewrite Hg. now repeat split.
Qed.

Lemma failed_call_shows_its_own_message_witness :
  active_outcomes
    (ui (step sample_key
           (CallSettled (Genai.Rejected {| message := "quota exceeded" |}))
           (run sample_key refused_file_while_loading initialConfig)))
  = [Failure "An error occurred: quota exceeded"].
Proof.
  exact (proj1
           (proj1
              (failed_call_shows_its_own_message sample_key
                 (run sample_key refused_file_while_loading initialConfig)
                 (reachable_run sample_key refused_file_while_loading
                    initialConfig (reach_init sample_key))
                 eq_refl)
              {| message := "quota exceeded" |})).
Defined.

(** X9.  A settled call can always be retried.  When a call is awaited in
    a reachable configuration, both slots are filled and a credential is
    configured; however the call settles, the button is enabled again,
    and a click then clears the result and makes a new call with the
    same two images and the selected action. *)
Theorem settled_call_can_be_retried :
  forall (API_KEY : option string) (c : Config),
    Reachable API_KEY c ->
    inflight c = 1 ->
    exists img1 img2 key,
      image1 (ui c) = Some img1 /\ image2 (ui c) = Some img2
      /\ API_KEY = Some key
      /\ forall outcome,
           let c' := step API_KEY (CallSettled outcome) c in
           button_disabled (ui c') = false
           /\ handleGenerate_start API_KEY (ui c')
              = (begin_loading (ui c'),
                 Some {| Genai.apiKey := key;
                         Genai.params :=
                           generateContentParameters img1 img2
                             (selectedAction (ui c)) |})
           /\ step API_KEY ButtonClicked c'
              = {| ui := begin_loading (ui c'); inflight := 1 |}
           /\ active_outcomes (begin_loading (ui c')) = [Loading].
Proof.
  intros API_KEY c Hreach Hone.
  destruct (awaited_call API_KEY c Hreach Hone) as (Ha & _ & _ & P1 & P2 & Hk).
  destruct (image1 (ui c)) as [img1|] eqn:E1; [|discriminate P1].
  destruct (image2 (ui c)) as [img2|] eqn:E2; [|discriminate P2].
  destruct API_KEY as [key|] eqn:Ekey; [|discriminate Hk].
  exists img1, img2, key.
  split; [reflexivity|]. split; [reflexivity|]. split; [reflexivity|].
  intros outcome c'. subst c'. cbn [step]. rewrite Hone. cbn [ui inflight].
  destruct (settle_frame outcome (ui c)) as (F1 & F2 & Fa).
  set (s' := handleGenerate_settle outcome (ui c)) in *.
  assert (Hb : button_disabled s' = false).
  { unfold button_disabled. rewrite F1, F2, E1, E2. reflexivity. }
  assert (Hm : missing_inputs s' = false).
  { unfold missing_inputs. rewrite F1, F2, Fa, E1, E2, Ha. reflexivity. }
  destruct (start_passes (Some key) s' Hm Hk)
    as (i1 & i2 & k & G1 & G2 & Gk & Hstart).
  assert (i1 = img1) by congruence. assert (i2 = img2) by congruence.
  assert (k = key) by congruence. subst i1 i2 k.
  split; [exact Hb|]. split; [rewrite Hstart, Fa; reflexivity|].
  split; [|reflexivity].
  cbn [step ui]. rewrite Hb, Hstart. reflexivity.
Qed.

Lemma settled_call_can_be_retried_witness :
  button_disabled
    (ui (step sample_key (CallSettled (Genai.Resolved words_only))
           (run sample_key awaiting_answer initialConfig)))
  = false.
Proof.
  destruct (settled_call_can_be_retried sample_key
              (run sample_key awaiting_answer initialConfig)
              (reachable_run sample_key awaiting_answer initialConfig
                 (reach_init sample_key))
              eq_refl)
    as (img1 & img2 & key & _ & _ & _ & Hretry).
  exact (proj1 (Hretry (Genai.Resolved words_only))).
Defined.

(** X10.  From upload to request.  On a reachable page with no call
    awaited and a credential configured, uploading into both slots files
    that read as [data:<type>;base64,<body>] and clicking the button
    makes one call whose parts are the first body with the first file's
    type, the second body with the second file's type, and the prompt for
    the action selected before; the page is then loading. *)
Theorem uploads_then_click_send_the_bodies :
  forall (API_KEY : option string) (c : Config) (file1 file2 : File)
         (body1 body2 : string),
    Reachable API_KEY c ->
    inflight c = 0 ->
    truthy API_KEY = true ->
    without_comma (type file1) = true -> without_comma body1 = true ->
    without_comma (type file2) = true -> without_comma body2 = true ->
    reading file1
    = LoadEnd (Some ("data:" ++ type file1 ++ ";base64," ++ body1)) ->
    reading file2
    = LoadEnd (Some ("data:" ++ type file2 ++ ";base64," ++ body2)) ->
    let c2 := run API_KEY [FileChosen Person1 file1; FileChosen Person2 file2] c in
    (exists call,
       handleGenerate_start API_KEY (ui c2) = (begin_loading (ui c2), Some call)
       /\ Genai.contents (Genai.params call)
          = [Genai.InlineData (Some body1) (type file1);
             Genai.InlineData (Some body2) (type file2);
             Genai.Text (prompt (selectedAction (ui c)))]
       /\ Some (Genai.apiKey call) = API_KEY)
    /\ step API_KEY ButtonClicked c2
       = {| ui := begin_loading (ui c2); inflight := 1 |}.
Proof.
  intros API_KEY c file1 file2 body1 body2 Hreach Hzero Hk
         Ht1 Hb1 Ht2 Hb2 Hr1 Hr2 c2.
  destruct (reachable_overlap_invariant API_KEY c Hreach)
    as (Ha & [(_ & Hone & _)|(Hl & _ & _)]); [congruence|].
  assert (Hui : ui c2
                = setImage2 (Some {| base64 := Some body2; mimeType := type file2 |})
                    (setImage1 (Some {| base64 := Some body1; mimeType := type file1 |})
                       (ui c))).
  { subst c2. cbn [run step ui].
    rewrite (intake_data_url Person1 file1 body1 (ui c) Ht1 Hb1 Hr1).
    rewrite (intake_data_url Person2 file2 body2 _ Ht2 Hb2 Hr2). reflexivity. }
  assert (Hn2 : inflight c2 = 0) by (subst c2; cbn; exact Hzero).
  assert (Hm : missing_inputs (ui c2) = false).
  { rewrite Hui. unfold missing_inputs. cbn. now rewrite Ha. }
  assert (Hbtn : button_disabled (ui c2) = false).
  { rewrite Hui. unfold button_disabled. cbn. now rewrite Hl. }
  destruct (start_passes API_KEY (ui c2) Hm Hk)
    as (i1 & i2 & k & G1 & G2 & Gk & Hstart).
  rewrite Hui in G1, G2. cbn in G1, G2.
  injection G1 as <-. injection G2 as <-.
  split.
  - eexists. split; [exact Hstart|]. rewrite Hui. cbn.
    split; [reflexivity|now rewrite Gk].
  - cbn [step]. rewrite Hbtn, Hstart. cbn [present]. now rewrite Hn2.
Qed.

Lemma uploads_then_click_send_the_bodies_witness :
  step sample_key ButtonClicked
    (run sample_key [FileChosen Person1 (png "QUJD"); FileChosen Person2 (jpeg "REVG")]
       initialConfig)
  = {| ui := begin_loading
               (ui (run sample_key
                      [FileChosen Person1 (png "QUJD"); FileChosen Person2 (jpeg "REVG")]
                      initialConfig));
       inflight := 1 |}.
Proof.
  exact (proj2
           (uploads_then_click_send_the_bodies sample_key initialConfig
              (png "QUJD") (jpeg "REVG") "QUJD" "REVG"
              (reach_init sample_key) eq_refl eq_refl
              eq_refl eq_refl eq_refl eq_refl eq_refl eq_refl)).
Defined.
